(** * A shallow embedding of the geometry kernel of rust-geo

    Sources embedded:
    - [src/geo-types/src/point.rs]: [Point], [set_x], [set_y];
    - [src/geo/src/algorithm/simplify.rs]: [rdp];
    - [src/geo/src/algorithm/intersects.rs]: the [Intersects] cases used below.

    The kernel is generic over a [Float] scalar [T].  We instantiate [T]
    with exact rationals [Q]: the comparisons [==], [<=], [>] of the source
    become [Qeq_bool], [Qle_bool] and [Qgtb] below, and [T::epsilon()] is the
    machine epsilon of [f64], [2^-52]. *)

From Stdlib Require Import QArith Qabs Qfield Lqa List Lia Arith.
Import ListNotations.

Open Scope Q_scope.

(** ** Scalars *)

(** [a > b] on the scalar type. *)
Definition Qgtb (a b : Q) : bool := negb (Qle_bool a b).

(** [T::epsilon()] for [T = f64]. *)
Definition machine_epsilon : Q := 1 # (2 ^ 52).

Lemma Qgtb_true (a b : Q) : Qgtb a b = true <-> b < a.
Proof.
  unfold Qgtb. rewrite Bool.negb_true_iff. split.
  - intros H. apply Qnot_le_lt. intros H'. apply Qle_bool_iff in H'. congruence.
  - intros H. destruct (Qle_bool a b) eqn:E; [|reflexivity].
    apply Qle_bool_iff in E. exfalso. apply (Qlt_not_le b a); assumption.
Qed.

Lemma Qgtb_false (a b : Q) : Qgtb a b = false <-> a <= b.
Proof.
  unfold Qgtb. rewrite Bool.negb_false_iff. apply Qle_bool_iff.
Qed.

(** ** Data model ([geo-types]) *)

(** [struct Coordinate<T> { x: T, y: T }] *)
Record Coordinate := { x : Q; y : Q }.

(** [pub struct Point<T>(pub Coordinate<T>)] *)
Record Point := mkPoint { point_coord : Coordinate }.

(** [Point::new(x, y)] *)
Definition Point_new (x0 y0 : Q) : Point := mkPoint {| x := x0; y := y0 |}.

(** [p.x()] and [p.y()] *)
Definition Point_x (p : Point) : Q := x (point_coord p).
Definition Point_y (p : Point) : Q := y (point_coord p).

(** [#[derive(PartialEq)]] on [Coordinate]: component-wise scalar [==]. *)
Definition coord_eqb (a b : Coordinate) : bool :=
  Qeq_bool (x a) (x b) && Qeq_bool (y a) (y b).

(** [struct Line<T> { start: Coordinate<T>, end: Coordinate<T> }] *)
Record Line := { start : Coordinate; end_ : Coordinate }.

(** [Line::new(start, end)] *)
Definition Line_new (s e : Coordinate) : Line := {| start := s; end_ := e |}.

(** [line.dx()] and [line.dy()] *)
Definition dx (l : Line) : Q := x (end_ l) - x (start l).
Definition dy (l : Line) : Q := y (end_ l) - y (start l).

(** [pub struct LineString<T>(pub Vec<Coordinate<T>>)] *)
Record LineString := mkLineString { ls_coords : list Coordinate }.

(** [pub struct Polygon<T> { exterior: LineString<T>, interiors: Vec<LineString<T>> }] *)
Record Polygon := { exterior : LineString; interiors : list LineString }.

(** [pub struct Bbox<T> { xmin, xmax, ymin, ymax }] *)
Record Bbox := { xmin : Q; xmax : Q; ymin : Q; ymax : Q }.

(** ** Ramer-Douglas-Peucker ([simplify.rs], [fn rdp]) *)

Section Rdp.

(** The point-to-line [EuclideanDistance] collaborator; [rdp] is studied
    for every such function. *)
Variable euclidean_distance : Point -> Line -> Q.

(** The scan loop of [rdp]:
    [for (i, _) in points.iter().enumerate().take(points.len() - 1).skip(1)],
    keeping [dmax] and [index] of the first strict maximum. [pts] are the
    scanned points, [i] the index of the first of them. *)
Fixpoint scan_max (line : Line) (pts : list Point) (i : nat) (dmax : Q)
    (index : nat) : Q * nat :=
  match pts with
  | [] => (dmax, index)
  | p :: rest =>
      let distance := euclidean_distance p line in
      if Qgtb distance dmax then scan_max line rest (S i) distance i
      else scan_max line rest (S i) dmax index
  end.

(** [rdp(points, epsilon)], with a fuel bound on the recursion depth:
    [None] means the fuel ran out, i.e. the recursion had not returned. *)
Fixpoint rdp_fuel (fuel : nat) (points : list Point) (epsilon : Q)
    : option (list Point) :=
  match fuel with
  | O => None
  | S fuel' =>
      match points with
      | [] => Some []
      | first :: _ =>
          let lst := last points first in
          let '(dmax, index) :=
            scan_max (Line_new (point_coord first) (point_coord lst))
              (skipn 1 (firstn (length points - 1) points)) 1 0 0 in
          if Qgtb dmax epsilon then
            match rdp_fuel fuel' (firstn (index + 1) points) epsilon with
            | None => None
            | Some intermediate =>
                match rdp_fuel fuel' (skipn index points) epsilon with
                | None => None
                | Some rest => Some (removelast intermediate ++ rest)
                end
            end
          else Some [first; lst]
      end
  end.

(** [rdp(points, epsilon)] returns [out]. *)
Definition rdp_result (points : list Point) (epsilon : Q) (out : list Point)
    : Prop :=
  exists fuel, rdp_fuel fuel points epsilon = Some out.

End Rdp.

(** A concrete distance used to instantiate [rdp] in the closed instances
    below: the squared perpendicular offset from the line (the rationals
    have no square root). The facts on [rdp] hold for every distance
    function; on inputs of at most two points the scan loop is empty and
    the distance is never evaluated. *)
Definition sq_offset (p : Point) (l : Line) : Q :=
  let c := dx l * (Point_y p - y (start l)) - dy l * (Point_x p - x (start l)) in
  let n := dx l * dx l + dy l * dy l in
  if Qeq_bool n 0 then 0 else c * c / n.

Definition origin : Point := Point_new 0 0.

Example rdp_empty_ex : rdp_fuel sq_offset 1 [] 1 = Some [].
Proof. reflexivity. Qed.

Example rdp_one_ex : rdp_fuel sq_offset 1 [origin] 1 = Some [origin; origin].
Proof. reflexivity. Qed.

(** ** Point setters ([point.rs]) *)

(** [&mut Point<T>] handles: a store of points indexed by locations. *)
Definition loc := nat.
Definition store := loc -> Point.

Definition store_upd (h : store) (l : loc) (p : Point) : store :=
  fun l' => if Nat.eqb l' l then p else h l'.

(** [pub fn set_x(&mut self, x: T) -> &mut Point<T> { self.0.x = x; self }] *)
Definition set_x (h : store) (self : loc) (v : Q) : store * loc :=
  let c := point_coord (h self) in
  (store_upd h self (mkPoint {| x := v; y := y c |}), self).

(** [pub fn set_y(&mut self, y: T) -> &mut Point<T> { self.0.y = y; self }] *)
Definition set_y (h : store) (self : loc) (v : Q) : store * loc :=
  let c := point_coord (h self) in
  (store_upd h self (mkPoint {| x := x c; y := v |}), self).

(** ** The [Intersects] matrix ([intersects.rs]) *)

(** [impl Intersects<Point<T>> for Line<T>] *)
Definition line_intersects_point (self : Line) (p : Point) : bool :=
  let tx := if Qeq_bool (dx self) 0 then None
            else Some ((Point_x p - x (start self)) / dx self) in
  let ty := if Qeq_bool (dy self) 0 then None
            else Some ((Point_y p - y (start self)) / dy self) in
  match tx, ty with
  | None, None => coord_eqb (point_coord p) (start self)
  | Some t, None => Qeq_bool (Point_y p) (y (start self)) && Qle_bool 0 t && Qle_bool t 1
  | None, Some t => Qeq_bool (Point_x p) (x (start self)) && Qle_bool 0 t && Qle_bool t 1
  | Some t_x, Some t_y =>
      Qle_bool (Qabs (t_x - t_y)) machine_epsilon && Qle_bool 0 t_x && Qle_bool t_x 1
  end.

(** [impl Intersects<Line<T>> for Point<T>] *)
Definition point_intersects_line (self : Point) (line : Line) : bool :=
  line_intersects_point line self.

(** [impl Intersects<Line<T>> for Line<T>] (Cramer's rule) *)
Definition line_intersects_line (self line : Line) : bool :=
  let a1 := dx self in
  let a2 := dy self in
  let b1 := - dx line in
  let b2 := - dy line in
  let c1 := x (start line) - x (start self) in
  let c2 := y (start line) - y (start self) in
  let d := a1 * b2 - a2 * b1 in
  if Qeq_bool d 0 then
    point_intersects_line (mkPoint (start self)) line
    || point_intersects_line (mkPoint (end_ self)) line
    || point_intersects_line (mkPoint (start line)) self
    || point_intersects_line (mkPoint (end_ line)) self
  else
    let s := (c1 * b2 - c2 * b1) / d in
    let t := (a1 * c2 - a2 * c1) / d in
    Qle_bool 0 s && Qle_bool s 1 && Qle_bool 0 t && Qle_bool t 1.

(** Modelled from the spec: [LineString::lines] (geo-types, not under src/):
    one [Line] per adjacent pair of points; empty or single-point
    LineStrings produce no segments. *)
Fixpoint lines_of (cs : list Coordinate) : list Line :=
  match cs with
  | a :: ((b :: _) as rest) => Line_new a b :: lines_of rest
  | _ => []
  end.

Definition lines (ls : LineString) : list Line := lines_of (ls_coords ls).

(** [linestring.points_iter()] *)
Definition points_iter (ls : LineString) : list Point := map mkPoint (ls_coords ls).

(** [impl Intersects<LineString<T>> for Line<T>] *)
Definition line_intersects_linestring (self : Line) (linestring : LineString) : bool :=
  existsb (fun line => line_intersects_line self line) (lines linestring).

(** [impl Intersects<Line<T>> for LineString<T>] *)
Definition linestring_intersects_line (self : LineString) (line : Line) : bool :=
  line_intersects_linestring line self.

(** The body of the double loop of [Intersects<LineString> for LineString]
    on segments [a] of [self] and [b] of the other LineString; [false]
    stands for [continue] and for falling through. *)
Definition segments_cross (a b : Line) : bool :=
  let u_b := dy b * dx a - dx b * dy a in
  if Qeq_bool u_b 0 then false
  else
    let ua_t := dx b * (y (start a) - y (start b)) - dy b * (x (start a) - x (start b)) in
    let ub_t := dx a * (y (start a) - y (start b)) - dy a * (x (start a) - x (start b)) in
    let u_a := ua_t / u_b in
    let u_b' := ub_t / u_b in
    Qle_bool 0 u_a && Qle_bool u_a 1 && Qle_bool 0 u_b' && Qle_bool u_b' 1.

(** [impl Intersects<LineString<T>> for LineString<T>] *)
Definition linestring_intersects_linestring (self linestring : LineString) : bool :=
  if (match ls_coords self with [] => true | _ => false end)
     || (match ls_coords linestring with [] => true | _ => false end)
  then false
  else existsb (fun a => existsb (fun b => segments_cross a b) (lines linestring))
         (lines self).

Section PolygonCases.

(** The point-in-polygon [Contains] collaborator. *)
Variable polygon_contains : Polygon -> Point -> bool.

(** [impl Intersects<LineString<T>> for Polygon<T>] *)
Definition polygon_intersects_linestring (self : Polygon) (linestring : LineString) : bool :=
  if linestring_intersects_linestring (exterior self) linestring
     || existsb (fun inner => linestring_intersects_linestring inner linestring)
          (interiors self)
  then true
  else existsb (fun point => polygon_contains self point) (points_iter linestring).

(** [impl Intersects<Polygon<T>> for LineString<T>] *)
Definition linestring_intersects_polygon (self : LineString) (polygon : Polygon) : bool :=
  polygon_intersects_linestring polygon self.

End PolygonCases.

(** Modelled from the spec: [Contains<Bbox> for Bbox] (algorithm/contains.rs,
    not under src/): [self] fully contains [bbox], boundaries included. *)
Definition bbox_contains (self bbox : Bbox) : bool :=
  Qle_bool (xmin self) (xmin bbox) && Qle_bool (xmax bbox) (xmax self)
  && Qle_bool (ymin self) (ymin bbox) && Qle_bool (ymax bbox) (ymax self).

(** [impl Intersects<Bbox<T>> for Bbox<T>] *)
Definition bbox_intersects_bbox (self bbox : Bbox) : bool :=
  if bbox_contains bbox self then false
  else
    ((Qle_bool (xmin bbox) (xmin self) && Qle_bool (xmin self) (xmax bbox))
     || (Qle_bool (xmin bbox) (xmax self) && Qle_bool (xmax self) (xmax bbox)))
    && ((Qle_bool (ymin bbox) (ymin self) && Qle_bool (ymin self) (ymax bbox))
        || (Qle_bool (ymin bbox) (ymax self) && Qle_bool (ymax self) (ymax bbox))).

Example bbox_test_ex :
  let xl := {| xmin := -100; xmax := 100; ymin := -200; ymax := 200 |} in
  let sm := {| xmin := -10; xmax := 10; ymin := -20; ymax := 20 |} in
  let s2 := {| xmin := 0; xmax := 20; ymin := 0; ymax := 30 |} in
  bbox_intersects_bbox xl sm = false /\ bbox_intersects_bbox sm xl = false /\
  bbox_intersects_bbox sm s2 = true /\ bbox_intersects_bbox s2 sm = true.
Proof. vm_compute. repeat split. Qed.

Example line_intersects_line_test_ex :
  let l0 := Line_new {| x := 0; y := 0 |} {| x := 3; y := 4 |} in
  let l1 := Line_new {| x := 2; y := 0 |} {| x := 2; y := 5 |} in
  let l2 := Line_new {| x := 0; y := 7 |} {| x := 5; y := 4 |} in
  line_intersects_line l0 l0 = true /\ line_intersects_line l0 l1 = true /\
  line_intersects_line l0 l2 = false /\ line_intersects_line l2 l1 = false.
Proof. vm_compute. repeat split. Qed.

Example intersect_linestring_test_ex :
  let ls := mkLineString [{| x := 3; y := 2 |}; {| x := 7; y := 6 |}] in
  linestring_intersects_linestring ls
    (mkLineString [{| x := 3; y := 4 |}; {| x := 8; y := 4 |}]) = true /\
  linestring_intersects_linestring ls
    (mkLineString [{| x := 3; y := 1 |}; {| x := 7; y := 5 |}]) = false.
Proof. vm_compute. split; reflexivity. Qed.

(** ** Point arithmetic ([point.rs]) *)

(** [impl Neg for Point<T>] *)
Definition Point_neg (self : Point) : Point := Point_new (- Point_x self) (- Point_y self).

(** [impl Add for Point<T>] *)
Definition Point_add (self rhs : Point) : Point :=
  Point_new (Point_x self + Point_x rhs) (Point_y self + Point_y rhs).

(** [impl Sub for Point<T>] *)
Definition Point_sub (self rhs : Point) : Point :=
  Point_new (Point_x self - Point_x rhs) (Point_y self - Point_y rhs).

(** [#[derive(PartialEq)]] on [Point]: scalar [==] on both components. *)
Definition point_eqb (a b : Point) : bool := coord_eqb (point_coord a) (point_coord b).

(** ** Simplification of aggregates ([simplify.rs]) *)

(** [rdp] with a recursion budget of one more than the slice length. By
    [rdp_fuel_total] and [rdp_fuel_negative_diverges] this is [None]
    exactly when the recursion of the source does not return. *)
Definition rdp (dist : Point -> Line -> Q) (points : list Point) (epsilon : Q)
    : option (list Point) :=
  rdp_fuel dist (S (length points)) points epsilon.

(** Modelled from the spec: [LineString::into_points] and
    [LineString::from(Vec<Point<T>>)] (geo-types, not under src/): the
    point sequence of a LineString and back, in order. *)
Definition into_points (ls : LineString) : list Point := map mkPoint (ls_coords ls).
Definition LineString_from_points (pts : list Point) : LineString :=
  mkLineString (map point_coord pts).

(** [iter().map(f).collect()] where every [f] may fail to return: the
    first failure is the result. *)
Fixpoint map_option {A B} (f : A -> option B) (l : list A) : option (list B) :=
  match l with
  | [] => Some []
  | a :: l' =>
      match f a with
      | None => None
      | Some b =>
          match map_option f l' with
          | None => None
          | Some bs => Some (b :: bs)
          end
      end
  end.

(** [impl Simplify<T> for LineString<T>] *)
Definition simplify_linestring (dist : Point -> Line -> Q) (epsilon : Q)
    (ls : LineString) : option LineString :=
  option_map LineString_from_points (rdp dist (into_points ls) epsilon).

(** [impl Simplify<T> for Polygon<T>] *)
Definition simplify_polygon (dist : Point -> Line -> Q) (epsilon : Q)
    (p : Polygon) : option Polygon :=
  match simplify_linestring dist epsilon (exterior p) with
  | None => None
  | Some e =>
      match map_option (simplify_linestring dist epsilon) (interiors p) with
      | None => None
      | Some is => Some {| exterior := e; interiors := is |}
      end
  end.

(** [pub struct MultiLineString<T>(pub Vec<LineString<T>>)] *)
Record MultiLineString := mkMultiLineString { mls_members : list LineString }.

(** [pub struct MultiPolygon<T>(pub Vec<Polygon<T>>)] *)
Record MultiPolygon := mkMultiPolygon { mpoly_members : list Polygon }.

(** [impl Simplify<T> for MultiLineString<T>] *)
Definition simplify_multilinestring (dist : Point -> Line -> Q) (epsilon : Q)
    (m : MultiLineString) : option MultiLineString :=
  option_map mkMultiLineString
    (map_option (simplify_linestring dist epsilon) (mls_members m)).

(** [impl Simplify<T> for MultiPolygon<T>] *)
Definition simplify_multipolygon (dist : Point -> Line -> Q) (epsilon : Q)
    (m : MultiPolygon) : option MultiPolygon :=
  option_map mkMultiPolygon
    (map_option (simplify_polygon dist epsilon) (mpoly_members m)).

(** A ring is closed when its first and last coordinates coincide (an
    empty ring counts as closed). *)
Definition ring_closed (ls : LineString) : Prop :=
  match ls_coords ls with
  | [] => True
  | c :: _ => c = last (ls_coords ls) c
  end.

(** [l1] is obtained from [l2] by deleting elements, order kept. *)
Inductive subseq {A} : list A -> list A -> Prop :=
  | subseq_nil l : subseq [] l
  | subseq_take a l1 l2 : subseq l1 l2 -> subseq (a :: l1) (a :: l2)
  | subseq_skip a l1 l2 : subseq l1 l2 -> subseq l1 (a :: l2).

Section PolygonPolygon.

Variable polygon_contains : Polygon -> Point -> bool.

(** [impl Intersects<Polygon<T>> for Polygon<T>] *)
Definition polygon_intersects_polygon (self polygon : Polygon) : bool :=
  polygon_intersects_linestring polygon_contains self (exterior polygon)
  || existsb (fun inner_line_string =>
                polygon_intersects_linestring polygon_contains self inner_line_string)
       (interiors polygon)
  || polygon_intersects_linestring polygon_contains polygon (exterior self).

(** Modelled from the spec: [Line::start_point] and [Line::end_point]
    (geo-types, not under src/). *)
Definition start_point (l : Line) : Point := mkPoint (start l).
Definition end_point (l : Line) : Point := mkPoint (end_ l).

(** [impl Intersects<Polygon<T>> for Line<T>] *)
Definition line_intersects_polygon (self : Line) (p : Polygon) : bool :=
  linestring_intersects_line (exterior p) self
  || existsb (fun inner => linestring_intersects_line inner self) (interiors p)
  || polygon_contains p (start_point self)
  || polygon_contains p (end_point self).

(** [impl Intersects<Line<T>> for Polygon<T>] *)
Definition polygon_intersects_line (self : Polygon) (line : Line) : bool :=
  line_intersects_polygon line self.

(** Modelled from the spec: [LineString::from(Vec<(T, T)>)] and
    [Polygon::new] (geo-types, not under src/), which build the values
    as given, without closing rings. The five-point ring built by
    [Intersects<Bbox<T>> for Polygon<T>]. *)
Definition bbox_polygon (bbox : Bbox) : Polygon :=
  {| exterior := mkLineString
       [ {| x := xmin bbox; y := ymin bbox |};
         {| x := xmin bbox; y := ymax bbox |};
         {| x := xmax bbox; y := ymax bbox |};
         {| x := xmax bbox; y := ymin bbox |};
         {| x := xmin bbox; y := ymin bbox |} ];
     interiors := [] |}.

(** [impl Intersects<Bbox<T>> for Polygon<T>] *)
Definition polygon_intersects_bbox (self : Polygon) (bbox : Bbox) : bool :=
  polygon_intersects_polygon self (bbox_polygon bbox).

(** [impl Intersects<Polygon<T>> for Bbox<T>] *)
Definition bbox_intersects_polygon (self : Bbox) (polygon : Polygon) : bool :=
  polygon_intersects_bbox polygon self.

End PolygonPolygon.

(** ** List facts *)

(** The last element of a list, if any ([slice.last()]). *)
Fixpoint last_opt {A} (l : list A) : option A :=
  match l with
  | [] => None
  | [a] => Some a
  | _ :: t => last_opt t
  end.

Lemma last_opt_cons {A} (a : A) l : l <> [] -> last_opt (a :: l) = last_opt l.
Proof. destruct l; [congruence | reflexivity]. Qed.

Lemma last_opt_app {A} (l1 l2 : list A) :
  l2 <> [] -> last_opt (l1 ++ l2) = last_opt l2.
Proof.
  intros H. induction l1 as [|a l1 IH]; [reflexivity|].
  cbn [app]. rewrite last_opt_cons; [exact IH|].
  destruct l1, l2; simpl; congruence.
Qed.

Lemma last_opt_last {A} (l : list A) d : l <> [] -> last_opt l = Some (last l d).
Proof.
  induction l as [|a l IH]; [congruence|]. intros _.
  destruct l as [|b l]; [reflexivity|].
  rewrite last_opt_cons by congruence. rewrite IH by congruence. reflexivity.
Qed.

Lemma last_opt_skipn {A} k (l : list A) :
  (k < length l)%nat -> last_opt (skipn k l) = last_opt l.
Proof.
  intros H. rewrite <- (firstn_skipn k l) at 2. symmetry. apply last_opt_app.
  intros E. apply (f_equal (@length A)) in E. rewrite length_skipn in E. simpl in E. lia.
Qed.

Lemma hd_error_removelast_app {A} (l1 l2 : list A) :
  (2 <= length l1)%nat -> hd_error (removelast l1 ++ l2) = hd_error l1.
Proof. destruct l1 as [|a [|b l1]]; simpl; intros; [lia | lia | reflexivity]. Qed.

Lemma length_removelast_app {A} (l1 l2 : list A) :
  (1 <= length l1)%nat -> length (removelast l1 ++ l2) = (length l1 - 1 + length l2)%nat.
Proof.
  intros H. rewrite length_app. destruct l1 as [|a l1]; [simpl in H; lia|].
  rewrite (app_removelast_last a (l := a :: l1)) at 2 by congruence.
  rewrite length_app. simpl. lia.
Qed.

(** ** Facts on [rdp] *)

Section RdpFacts.

Variable dist : Point -> Line -> Q.

Lemma scan_max_spec line pts i dmax index d' idx' :
  scan_max dist line pts i dmax index = (d', idx') ->
  dmax <= d' /\ ((d' = dmax /\ idx' = index) \/ (i <= idx' < i + length pts)%nat).
Proof.
  revert i dmax index. induction pts as [|p rest IH]; intros i dmax index H.
  - simpl in H. inversion H; subst. split; [apply Qle_refl | left; auto].
  - simpl in H. destruct (Qgtb (dist p line) dmax) eqn:G.
    + apply Qgtb_true in G. apply IH in H as [H1 H2]. split.
      * apply Qlt_le_weak. eapply Qlt_le_trans; eassumption.
      * right. simpl. destruct H2 as [[-> ->] | H2]; lia.
    + apply IH in H as [H1 H2]. split; [exact H1|].
      destruct H2 as [H2 | H2]; [left; exact H2 | right; simpl; lia].
Qed.

Lemma length_scan_window (pts : list Point) :
  length (skipn 1 (firstn (length pts - 1) pts)) = (length pts - 2)%nat.
Proof. rewrite length_skipn, length_firstn. lia. Qed.

Lemma rdp_fuel_S_cons f p rest e :
  rdp_fuel dist (S f) (p :: rest) e =
  let '(dmax, index) :=
    scan_max dist (Line_new (point_coord p) (point_coord (last (p :: rest) p)))
      (skipn 1 (firstn (length (p :: rest) - 1) (p :: rest))) 1 0 0 in
  if Qgtb dmax e then
    match rdp_fuel dist f (firstn (index + 1) (p :: rest)) e with
    | None => None
    | Some intermediate =>
        match rdp_fuel dist f (skipn index (p :: rest)) e with
        | None => None
        | Some r => Some (removelast intermediate ++ r)
        end
    end
  else Some [p; last (p :: rest) p].
Proof. reflexivity. Qed.

(** One step of [rdp] on a non-empty slice: name the scan result and the
    facts the scan guarantees about it. *)
Ltac rdp_step Hs :=
  rewrite rdp_fuel_S_cons;
  match goal with
  | |- context [scan_max dist ?l ?w 1 0 0] =>
      let d := fresh "dmax" in let k := fresh "index" in
      destruct (scan_max dist l w 1 0 0) as [d k] eqn:Hs;
      apply scan_max_spec in Hs; rewrite length_scan_window in Hs
  end.

Lemma rdp_fuel_S n pts e o :
  rdp_fuel dist n pts e = Some o -> rdp_fuel dist (S n) pts e = Some o.
Proof.
  revert pts o. induction n as [|n IH]; intros pts o H; [discriminate|].
  destruct pts as [|p rest]; [exact H|].
  revert H. rewrite !rdp_fuel_S_cons.
  destruct (scan_max dist _ _ 1 0 0) as [dmax index].
  destruct (Qgtb dmax e); [|exact (fun H => H)].
  destruct (rdp_fuel dist n (firstn _ _) e) as [a|] eqn:Ha; [|discriminate].
  rewrite (IH _ _ Ha).
  destruct (rdp_fuel dist n (skipn _ _) e) as [b|] eqn:Hb; [|discriminate].
  rewrite (IH _ _ Hb). exact (fun H => H).
Qed.

Lemma rdp_fuel_le n m pts e o :
  (n <= m)%nat -> rdp_fuel dist n pts e = Some o -> rdp_fuel dist m pts e = Some o.
Proof.
  intros Hle. induction Hle; [exact (fun H => H)|].
  intros H. apply rdp_fuel_S. auto.
Qed.

Lemma rdp_result_det pts e o1 o2 :
  rdp_result dist pts e o1 -> rdp_result dist pts e o2 -> o1 = o2.
Proof.
  intros [n1 H1] [n2 H2].
  apply (rdp_fuel_le n1 (Nat.max n1 n2)) in H1; [|lia].
  apply (rdp_fuel_le n2 (Nat.max n1 n2)) in H2; [|lia].
  congruence.
Qed.

Lemma firstn_succ_cons {A} k (p : A) rest :
  firstn (k + 1) (p :: rest) = p :: firstn k rest.
Proof. rewrite Nat.add_1_r. reflexivity. Qed.

(** Every output of [rdp] on a non-empty slice has at least two points,
    starts with the first input point and ends with the last one. *)
Lemma rdp_fuel_shape n pts e o :
  pts <> [] -> rdp_fuel dist n pts e = Some o ->
  (2 <= length o)%nat /\ hd_error o = hd_error pts /\ last_opt o = last_opt pts.
Proof.
  revert pts o. induction n as [|n IH]; intros pts o Hne H; [discriminate|].
  destruct pts as [|p rest]; [congruence|]. clear Hne.
  revert H. rdp_step Hs. destruct (Qgtb dmax e).
  - destruct (rdp_fuel dist n (firstn _ _) e) as [a|] eqn:Ha; [|discriminate].
    destruct (rdp_fuel dist n (skipn _ _) e) as [b|] eqn:Hb; [|discriminate].
    intros H. injection H as <-.
    assert (Hk : (index < length (p :: rest))%nat) by (simpl in *; lia).
    apply IH in Ha as [Ha1 [Ha2 Ha3]];
      [|rewrite firstn_succ_cons; congruence].
    apply IH in Hb as [Hb1 [Hb2 Hb3]];
      [|intros E; apply (f_equal (@length Point)) in E;
        rewrite length_skipn in E; cbn [length] in E, Hk; lia].
    rewrite length_removelast_app by lia. repeat split; [lia| |].
    + rewrite hd_error_removelast_app by lia. rewrite Ha2, firstn_succ_cons.
      reflexivity.
    + rewrite last_opt_app by (intros E; rewrite E in Hb1; simpl in Hb1; lia).
      rewrite Hb3. apply last_opt_skipn. exact Hk.
  - intros H. injection H as <-. repeat split; [simpl; lia|].
    rewrite (last_opt_last (p :: rest) p) by congruence. reflexivity.
Qed.

Lemma length_firstn_cons k (p : Point) rest :
  (k < length (p :: rest))%nat -> length (firstn (k + 1) (p :: rest)) = (k + 1)%nat.
Proof. intros H. rewrite length_firstn. lia. Qed.

Lemma skipn_cons_nonempty k (p : Point) rest :
  (k < length (p :: rest))%nat -> skipn k (p :: rest) <> [].
Proof.
  intros H E. apply (f_equal (@length Point)) in E.
  rewrite length_skipn in E. cbn [length] in E, H. lia.
Qed.

(** With a non-negative tolerance, the recursion depth of [rdp] is bounded
    by the slice length: every recursive call is on a strictly shorter
    slice. *)
Lemma rdp_fuel_total e :
  0 <= e -> forall n pts, (length pts <= n)%nat ->
  exists o, rdp_fuel dist (S n) pts e = Some o.
Proof.
  intros He n. induction n as [|n IH]; intros pts Hlen.
  - destruct pts; [exists []; reflexivity | simpl in Hlen; lia].
  - destruct pts as [|p rest]; [exists []; reflexivity|].
    rdp_step Hs. destruct (Qgtb dmax e) eqn:G.
    + apply Qgtb_true in G. destruct Hs as [_ [[-> _] | Hk]].
      { exfalso. apply (Qlt_not_le e 0); assumption. }
      cbn [length] in Hk, Hlen.
      destruct (IH (firstn (index + 1) (p :: rest))) as [a Ha].
      { rewrite length_firstn_cons by (cbn [length]; lia). lia. }
      destruct (IH (skipn index (p :: rest))) as [b Hb].
      { rewrite length_skipn. cbn [length]. lia. }
      rewrite Ha, Hb. eexists. reflexivity.
    + eexists. reflexivity.
Qed.

(** With a negative tolerance, [rdp] on a non-empty slice never returns:
    [dmax] starts at zero, so [dmax > epsilon] always holds and the prefix
    [points[..index + 1]] is non-empty again. *)
Lemma rdp_fuel_negative_diverges e :
  e < 0 -> forall n pts, pts <> [] -> rdp_fuel dist n pts e = None.
Proof.
  intros He n. induction n as [|n IH]; intros pts Hne; [reflexivity|].
  destruct pts as [|p rest]; [congruence|].
  rdp_step Hs. destruct Hs as [H0 _].
  replace (Qgtb dmax e) with true
    by (symmetry; apply Qgtb_true; eapply Qlt_le_trans; eassumption).
  rewrite IH by (rewrite firstn_succ_cons; congruence). reflexivity.
Qed.

(** With a non-negative tolerance, [rdp] does not lengthen a slice of
    length other than one. *)
Lemma rdp_fuel_length_le e :
  0 <= e -> forall n pts o, length pts <> 1%nat ->
  rdp_fuel dist n pts e = Some o -> (length o <= length pts)%nat.
Proof.
  intros He n. induction n as [|n IH]; intros pts o H1 H; [discriminate|].
  destruct pts as [|p rest]; [injection H as <-; reflexivity|].
  revert H. rdp_step Hs. destruct (Qgtb dmax e) eqn:G.
  - apply Qgtb_true in G. destruct Hs as [_ [[-> _] | Hk]].
    { exfalso. apply (Qlt_not_le e 0); assumption. }
    cbn [length] in Hk, H1.
    destruct (rdp_fuel dist n (firstn _ _) e) as [a|] eqn:Ha; [|discriminate].
    destruct (rdp_fuel dist n (skipn _ _) e) as [b|] eqn:Hb; [|discriminate].
    intros H. injection H as <-.
    pose proof (rdp_fuel_shape n (firstn (index + 1) (p :: rest)) e a
      ltac:(rewrite firstn_succ_cons; congruence) Ha)
      as [Ha2 _].
    apply IH in Ha; [|rewrite length_firstn_cons by (cbn [length]; lia); lia].
    apply IH in Hb; [|rewrite length_skipn; cbn [length]; lia].
    rewrite length_firstn_cons in Ha by (cbn [length]; lia).
    rewrite length_skipn in Hb. cbn [length] in Hb |- *.
    rewrite length_removelast_app by lia. lia.
  - intros H. injection H as <-. cbn [length] in H1 |- *. lia.
Qed.

(** A larger tolerance never yields a longer output. *)
Lemma rdp_fuel_monotone e1 e2 :
  e1 <= e2 -> forall n1 n2 pts o1 o2,
  rdp_fuel dist n1 pts e1 = Some o1 -> rdp_fuel dist n2 pts e2 = Some o2 ->
  (length o2 <= length o1)%nat.
Proof.
  intros He n1. induction n1 as [|n1 IH]; intros n2 pts o1 o2 H1 H2;
    [discriminate|].
  destruct n2 as [|n2]; [discriminate|].
  destruct pts as [|p rest];
    [injection H1 as <-; injection H2 as <-; reflexivity|].
  pose proof (rdp_fuel_shape (S n1) (p :: rest) e1 o1 ltac:(congruence) H1)
    as [Ho1 _].
  revert H1 H2. rewrite !rdp_fuel_S_cons.
  destruct (scan_max dist _ _ 1 0 0) as [dmax index] eqn:Hs.
  destruct (Qgtb dmax e1) eqn:G1, (Qgtb dmax e2) eqn:G2.
  - destruct (rdp_fuel dist n1 (firstn _ _) e1) as [a1|] eqn:Ha1; [|discriminate].
    destruct (rdp_fuel dist n1 (skipn _ _) e1) as [b1|] eqn:Hb1; [|discriminate].
    destruct (rdp_fuel dist n2 (firstn _ _) e2) as [a2|] eqn:Ha2; [|discriminate].
    destruct (rdp_fuel dist n2 (skipn _ _) e2) as [b2|] eqn:Hb2; [|discriminate].
    intros H1 H2. injection H1 as <-. injection H2 as <-.
    pose proof (rdp_fuel_shape n1 (firstn (index + 1) (p :: rest)) e1 a1
      ltac:(rewrite firstn_succ_cons; congruence) Ha1)
      as [La1 _].
    pose proof (rdp_fuel_shape n2 (firstn (index + 1) (p :: rest)) e2 a2
      ltac:(rewrite firstn_succ_cons; congruence) Ha2)
      as [La2 _].
    pose proof (IH _ _ _ _ Ha1 Ha2). pose proof (IH _ _ _ _ Hb1 Hb2).
    rewrite !length_removelast_app by lia. lia.
  - intros _ H2. injection H2 as <-. exact Ho1.
  - exfalso. apply Qgtb_false in G1. apply Qgtb_true in G2.
    apply (Qlt_not_le e2 dmax); [exact G2|]. eapply Qle_trans; eassumption.
  - intros H1 H2. injection H1 as <-. injection H2 as <-. reflexivity.
Qed.

End RdpFacts.

(** ** Auxiliary facts on the [Intersects] cases *)

Lemma linestring_intersects_empty_r (ls : LineString) :
  linestring_intersects_linestring ls (mkLineString []) = false.
Proof.
  unfold linestring_intersects_linestring. simpl.
  rewrite Bool.orb_true_r. reflexivity.
Qed.

Lemma existsb_all_false {A} (f : A -> bool) (l : list A) :
  (forall a, f a = false) -> existsb f l = false.
Proof. intros H. induction l as [|a l IH]; simpl; [reflexivity|]. rewrite H, IH. reflexivity. Qed.

Lemma Qeq_bool_false_iff (a b : Q) : Qeq_bool a b = false <-> ~ a == b.
Proof.
  split; [apply Qeq_bool_neq|].
  intros H. destruct (Qeq_bool a b) eqn:E; [|reflexivity].
  exfalso. apply H. apply Qeq_bool_iff. exact E.
Qed.

(** Rewrite the zero tests of [line_intersects_point] from hypotheses. *)
Ltac zero_tests :=
  repeat match goal with
  | H : ?a == 0 |- context [Qeq_bool ?a 0] =>
      rewrite (proj2 (Qeq_bool_iff a 0) H)
  | H : ~ ?a == 0 |- context [Qeq_bool ?a 0] =>
      rewrite (proj2 (Qeq_bool_false_iff a 0) H)
  end.

Ltac bool_to_prop :=
  repeat rewrite ?Bool.andb_true_iff, ?Qeq_bool_iff, ?Qle_bool_iff.

(** ** The claims *)

(** C1: for every non-empty point sequence and every epsilon >= 0, [rdp]
    returns, and its output starts with the first input point and ends
    with the last input point. *)
Theorem rdp_keeps_endpoints (dist : Point -> Line -> Q) (points : list Point)
    (epsilon : Q) (Hne : points <> []) (He : 0 <= epsilon) :
  (exists out, rdp_result dist points epsilon out) /\
  forall out, rdp_result dist points epsilon out ->
    hd_error out = hd_error points /\ last_opt out = last_opt points.
Proof.
  split.
  - destruct (rdp_fuel_total dist epsilon He (length points) points (le_n _))
      as [out Hout].
    exists out, (S (length points)). exact Hout.
  - intros out [fuel Hfuel].
    destruct (rdp_fuel_shape dist fuel points epsilon out Hne Hfuel) as [_ H].
    exact H.
Qed.

Lemma rdp_keeps_endpoints_witness :
  [origin; Point_new 1 1] <> [] /\ 0 <= 0 /\
  ((exists out, rdp_result sq_offset [origin; Point_new 1 1] 0 out) /\
   forall out, rdp_result sq_offset [origin; Point_new 1 1] 0 out ->
     hd_error out = hd_error [origin; Point_new 1 1] /\
     last_opt out = last_opt [origin; Point_new 1 1]).
Proof.
  split; [discriminate|]. split; [apply Qle_refl|].
  apply rdp_keeps_endpoints; [discriminate | apply Qle_refl].
Defined.

(** C2 (code defect): a one-point input is not returned unchanged: for
    [points = [(0,0)]] and [epsilon = 1] the scan loop is empty, [dmax = 0]
    is not above [epsilon], and [rdp] returns [vec![first, last]], the
    point twice. *)
Theorem rdp_one_point_doubled :
  rdp_result sq_offset [origin] 1 [origin; origin] /\
  (forall out, rdp_result sq_offset [origin] 1 out -> out = [origin; origin]) /\
  [origin] <> [origin; origin].
Proof.
  assert (H : rdp_result sq_offset [origin] 1 [origin; origin])
    by (exists 1%nat; reflexivity).
  split; [exact H|]. split; [|discriminate].
  intros out Hout. exact (rdp_result_det sq_offset _ _ _ _ Hout H).
Qed.

(** C3 (code defect): for every distance function, every tolerance and
    every input where [rdp] returns, the output is no longer than the
    input unless the input has exactly one point; a one-point input comes
    back with two points (the same slip as in C2). *)
Theorem rdp_length_one_point_exception (dist : Point -> Line -> Q)
    (points : list Point) (epsilon : Q) (out : list Point)
    (Hout : rdp_result dist points epsilon out) :
  (length points <> 1%nat -> (length out <= length points)%nat) /\
  (length points = 1%nat -> length out = 2%nat).
Proof.
  destruct (Qlt_le_dec epsilon 0) as [Hn | He].
  - destruct points as [|p rest].
    + destruct Hout as [[|n] H]; [discriminate|].
      injection H as <-. simpl. split; intros; lia.
    + exfalso. destruct Hout as [n H].
      rewrite (rdp_fuel_negative_diverges dist epsilon Hn n (p :: rest)
                 ltac:(discriminate)) in H.
      discriminate.
  - split.
    + intros H1. destruct Hout as [n H].
      exact (rdp_fuel_length_le dist epsilon He n points out H1 H).
    + intros H1. destruct points as [|p [|q rest]]; try (simpl in H1; lia).
      destruct Hout as [[|n] H]; [discriminate|].
      cbn in H. rewrite (proj2 (Qgtb_false 0 epsilon) He) in H.
      injection H as <-. reflexivity.
Qed.

Lemma rdp_length_one_point_exception_witness :
  rdp_result sq_offset [origin] 1 [origin; origin] /\
  ((length [origin] <> 1%nat -> (length [origin; origin] <= length [origin])%nat) /\
   (length [origin] = 1%nat -> length [origin; origin] = 2%nat)).
Proof.
  assert (Hr : rdp_result sq_offset [origin] 1 [origin; origin])
    by (exists 1%nat; reflexivity).
  split; [exact Hr|].
  exact (rdp_length_one_point_exception sq_offset [origin] 1 [origin; origin] Hr).
Defined.

(** C4 (as stated, refuted): with the finite tolerance [epsilon = -1],
    [rdp] on the one-point input [[(0,0)]] never returns. *)
Lemma rdp_negative_epsilon_no_result :
  ~ exists out, rdp_result sq_offset [origin] (-1) out.
Proof.
  intros [out [fuel H]].
  rewrite (rdp_fuel_negative_diverges sq_offset (-1) ltac:(reflexivity) fuel
             [origin] ltac:(discriminate)) in H.
  discriminate.
Qed.

(** C4 (amended): [rdp] returns for every finite point sequence and every
    epsilon >= 0; for every epsilon < 0 and every non-empty sequence it
    never returns (the recursion never reaches a base case). *)
Theorem rdp_terminates_iff_nonnegative (dist : Point -> Line -> Q)
    (points : list Point) (epsilon : Q) :
  (0 <= epsilon -> exists out, rdp_result dist points epsilon out) /\
  (epsilon < 0 -> points <> [] -> ~ exists out, rdp_result dist points epsilon out).
Proof.
  split.
  - intros He.
    destruct (rdp_fuel_total dist epsilon He (length points) points (le_n _))
      as [out Hout].
    exists out, (S (length points)). exact Hout.
  - intros He Hne [out [fuel H]].
    rewrite (rdp_fuel_negative_diverges dist epsilon He fuel points Hne) in H.
    discriminate.
Qed.

(** C5: for every point sequence and every pair of tolerances
    [e1 <= e2], the output of [rdp] at [e2] is no longer than its output
    at [e1]. *)
Theorem rdp_monotone_epsilon (dist : Point -> Line -> Q) (points : list Point)
    (e1 e2 : Q) (o1 o2 : list Point) (He : e1 <= e2)
    (H1 : rdp_result dist points e1 o1) (H2 : rdp_result dist points e2 o2) :
  (length o2 <= length o1)%nat.
Proof.
  destruct H1 as [n1 H1], H2 as [n2 H2].
  exact (rdp_fuel_monotone dist e1 e2 He n1 n2 points o1 o2 H1 H2).
Qed.

Definition tent : list Point := [origin; Point_new 1 1; Point_new 2 0].

Lemma rdp_monotone_epsilon_witness :
  rdp_result sq_offset tent (1#2) tent /\
  rdp_result sq_offset tent 2 [origin; Point_new 2 0] /\
  (length [origin; Point_new 2 0] <= length tent)%nat.
Proof.
  assert (H1 : rdp_result sq_offset tent (1#2) tent)
    by (exists 3%nat; vm_compute; reflexivity).
  assert (H2 : rdp_result sq_offset tent 2 [origin; Point_new 2 0])
    by (exists 3%nat; vm_compute; reflexivity).
  split; [exact H1|]. split; [exact H2|].
  exact (rdp_monotone_epsilon sq_offset tent (1#2) 2 _ _
           ltac:(vm_compute; discriminate) H1 H2).
Defined.

Definition bbox_a : Bbox := {| xmin := 0; xmax := 10; ymin := 0; ymax := 5 |}.
Definition bbox_b : Bbox := {| xmin := 2; xmax := 3; ymin := 3; ymax := 8 |}.

(** C6 (code defect): [Intersects<Bbox> for Bbox] is not symmetric. The
    boxes [0..10 x 0..5] and [2..3 x 3..8] overlap and neither contains the
    other; seen from the first box neither of its x bounds lies in
    [2..3], so it reports [false], while seen from the second box it
    reports [true]. *)
Theorem bbox_intersects_not_symmetric :
  bbox_contains bbox_a bbox_b = false /\ bbox_contains bbox_b bbox_a = false /\
  bbox_intersects_bbox bbox_a bbox_b = false /\
  bbox_intersects_bbox bbox_b bbox_a = true.
Proof. vm_compute. repeat split. Qed.

Definition bbox_big : Bbox := {| xmin := 0; xmax := 10; ymin := 0; ymax := 10 |}.
Definition bbox_small : Bbox := {| xmin := 0; xmax := 5; ymin := 0; ymax := 5 |}.

(** C7 (code defect): a box containing another, here [0..10 x 0..10]
    containing [0..5 x 0..5] with shared lower edges, reports [true] when
    asked from the containing box: only [bbox.contains(self)] is checked,
    and the own lower bounds of the containing box lie in the contained
    one's ranges. *)
Theorem bbox_containing_reports_intersection :
  bbox_contains bbox_big bbox_small = true /\
  bbox_intersects_bbox bbox_big bbox_small = true /\
  bbox_intersects_bbox bbox_small bbox_big = false.
Proof. vm_compute. repeat split. Qed.

(** C8: the Point x Line predicate follows the four-case parametric
    policy on [dx], [dy], with [tx = (p.x - start.x) / dx] and
    [ty = (p.y - start.y) / dy]; in particular the segment (2,0)-(2,5)
    intersects the point (2,4) and the segment (0,6)-(1.5,4.5) does not. *)
Theorem point_line_four_cases (p : Point) (l : Line) :
  let tx := (Point_x p - x (start l)) / dx l in
  let ty := (Point_y p - y (start l)) / dy l in
  (dx l == 0 -> dy l == 0 ->
     (point_intersects_line p l = true <->
      Point_x p == x (start l) /\ Point_y p == y (start l))) /\
  (~ dx l == 0 -> dy l == 0 ->
     (point_intersects_line p l = true <->
      Point_y p == y (start l) /\ 0 <= tx /\ tx <= 1)) /\
  (dx l == 0 -> ~ dy l == 0 ->
     (point_intersects_line p l = true <->
      Point_x p == x (start l) /\ 0 <= ty /\ ty <= 1)) /\
  (~ dx l == 0 -> ~ dy l == 0 ->
     (point_intersects_line p l = true <->
      Qabs (tx - ty) <= machine_epsilon /\ 0 <= tx /\ tx <= 1)) /\
  point_intersects_line (Point_new 2 4)
    (Line_new {| x := 2; y := 0 |} {| x := 2; y := 5 |}) = true /\
  point_intersects_line (Point_new 2 4)
    (Line_new {| x := 0; y := 6 |} {| x := 3#2; y := 9#2 |}) = false.
Proof.
  intros tx ty. unfold point_intersects_line, line_intersects_point.
  refine (conj _ (conj _ (conj _ (conj _ (conj _ _))))).
  - intros Hx Hy. zero_tests. unfold coord_eqb. bool_to_prop.
    unfold Point_x, Point_y. tauto.
  - intros Hx Hy. zero_tests. bool_to_prop. tauto.
  - intros Hx Hy. zero_tests. bool_to_prop. tauto.
  - intros Hx Hy. zero_tests. bool_to_prop. tauto.
  - vm_compute. reflexivity.
  - vm_compute. reflexivity.
Qed.

(** C9: an empty LineString intersects no Line, no LineString and no
    Polygon, in either argument order, whatever the point-in-polygon
    collaborator. *)
Theorem empty_linestring_intersects_nothing
    (polygon_contains : Polygon -> Point -> bool)
    (line : Line) (ls : LineString) (poly : Polygon) :
  let empty := mkLineString [] in
  line_intersects_linestring line empty = false /\
  linestring_intersects_line empty line = false /\
  linestring_intersects_linestring empty ls = false /\
  linestring_intersects_linestring ls empty = false /\
  polygon_intersects_linestring polygon_contains poly empty = false /\
  linestring_intersects_polygon polygon_contains empty poly = false.
Proof.
  intros empty.
  assert (Hp : polygon_intersects_linestring polygon_contains poly empty = false).
  { unfold polygon_intersects_linestring.
    rewrite linestring_intersects_empty_r.
    rewrite (existsb_all_false _ (interiors poly))
      by (intros inner; apply linestring_intersects_empty_r).
    reflexivity. }
  refine (conj eq_refl (conj eq_refl (conj eq_refl
    (conj (linestring_intersects_empty_r ls) (conj Hp Hp))))).
Qed.

(** C10: [set_x] changes only the x component of the point it is called
    on and returns a handle to that same point; [set_y] likewise for y.
    No other point of the store changes. *)
Theorem setters_frame (h : store) (l : loc) (v : Q) :
  (let '(h', r) := set_x h l v in
   r = l /\ Point_x (h' l) = v /\ Point_y (h' l) = Point_y (h l) /\
   forall l', l' <> l -> h' l' = h l') /\
  (let '(h', r) := set_y h l v in
   r = l /\ Point_y (h' l) = v /\ Point_x (h' l) = Point_x (h l) /\
   forall l', l' <> l -> h' l' = h l').
Proof.
  unfold set_x, set_y, store_upd, Point_x, Point_y.
  split; (split; [reflexivity|]);
    rewrite Nat.eqb_refl; (split; [reflexivity|]); (split; [reflexivity|]);
    intros l' Hl'; apply Nat.eqb_neq in Hl'; rewrite Hl'; reflexivity.
Qed.

(** ** Further facts on [rdp] and [Simplify] *)

Lemma subseq_app {A} (a1 l1 a2 l2 : list A) :
  subseq a1 l1 -> subseq a2 l2 -> subseq (a1 ++ a2) (l1 ++ l2).
Proof.
  intros H1 H2. induction H1; simpl.
  - induction l; simpl; [exact H2 | apply subseq_skip; exact IHl].
  - apply subseq_take. exact IHsubseq.
  - apply subseq_skip. exact IHsubseq.
Qed.

Lemma subseq_nonempty {A} (a l : list A) : subseq a l -> a <> [] -> l <> [].
Proof. intros H. destruct H; congruence. Qed.

Lemma subseq_removelast {A} (a l : list A) :
  subseq a l -> a <> [] -> subseq (removelast a) (removelast l).
Proof.
  intros H. induction H as [l | x a l H IH | x a l H IH]; intros Hne; [congruence| |].
  - destruct a as [|b a]; [apply subseq_nil|].
    pose proof (subseq_nonempty _ _ H ltac:(congruence)) as Hl.
    destruct l as [|c l]; [congruence|].
    change (removelast (x :: b :: a)) with (x :: removelast (b :: a)).
    change (removelast (x :: c :: l)) with (x :: removelast (c :: l)).
    apply subseq_take. apply IH. congruence.
  - pose proof (subseq_nonempty _ _ H Hne) as Hl.
    destruct l as [|c l]; [congruence|].
    change (removelast (x :: c :: l)) with (x :: removelast (c :: l)).
    apply subseq_skip. apply IH. exact Hne.
Qed.

Lemma subseq_last {A} (l : list A) d : l <> [] -> subseq [last l d] l.
Proof.
  induction l as [|a l IH]; intros H; [congruence|].
  destruct l as [|b l]; [apply subseq_take, subseq_nil|].
  apply subseq_skip. apply IH. congruence.
Qed.

Lemma interior_removelast (p : Point) rest :
  skipn 1 (firstn (length (p :: rest) - 1) (p :: rest)) = removelast rest.
Proof.
  cbn [length]. replace (S (length rest) - 1)%nat with (length rest) by lia.
  destruct rest as [|q rest]; [reflexivity|].
  cbn [length firstn skipn].
  rewrite (removelast_firstn_len (q :: rest)). reflexivity.
Qed.

Section RdpMore.

Variable dist : Point -> Line -> Q.

Lemma scan_max_le_iff line pts i dmax index d' k e :
  scan_max dist line pts i dmax index = (d', k) ->
  (d' <= e <-> dmax <= e /\ Forall (fun q => dist q line <= e) pts).
Proof.
  revert i dmax index. induction pts as [|q pts IH]; intros i dmax index H.
  - simpl in H. injection H as -> _. split; [intros; split; auto | tauto].
  - simpl in H. rewrite Forall_cons_iff.
    destruct (Qgtb (dist q line) dmax) eqn:G.
    + apply Qgtb_true in G. rewrite (IH _ _ _ H). split.
      * intros [H1 H2]. split; [|tauto]. apply Qlt_le_weak.
        eapply Qlt_le_trans; eassumption.
      * tauto.
    + apply Qgtb_false in G. rewrite (IH _ _ _ H). split.
      * intros [H1 H2]. split; [exact H1|]. split; [|exact H2].
        eapply Qle_trans; eassumption.
      * tauto.
Qed.

Lemma rdp_spec pts e o : rdp dist pts e = Some o <-> rdp_result dist pts e o.
Proof.
  split; [intros H; exists (S (length pts)); exact H|].
  intros Hr. destruct (Qlt_le_dec e 0) as [Hneg | Hpos].
  - destruct pts as [|p rest].
    + destruct Hr as [[|n] H]; [discriminate|]. exact H.
    + destruct Hr as [n H].
      rewrite (rdp_fuel_negative_diverges dist e Hneg n) in H by congruence.
      discriminate.
  - destruct (rdp_fuel_total dist e Hpos (length pts) pts (le_n _)) as [o' H'].
    unfold rdp. rewrite H'. f_equal.
    apply (rdp_result_det dist pts e); [exists (S (length pts)); exact H' | exact Hr].
Qed.

Lemma rdp_fuel_subseq e :
  0 <= e -> forall n pts o, length pts <> 1%nat ->
  rdp_fuel dist n pts e = Some o -> subseq o pts.
Proof.
  intros He n. induction n as [|n IH]; intros pts o H1 H; [discriminate|].
  destruct pts as [|p rest]; [injection H as <-; apply subseq_nil|].
  revert H. rewrite rdp_fuel_S_cons.
  destruct (scan_max dist _ _ 1 0 0) as [dmax index] eqn:Hs.
  apply scan_max_spec in Hs. rewrite length_scan_window in Hs.
  destruct (Qgtb dmax e) eqn:G.
  - apply Qgtb_true in G. destruct Hs as [_ [[-> _] | Hk]].
    { exfalso. apply (Qlt_not_le e 0); assumption. }
    cbn [length] in Hk, H1.
    destruct (rdp_fuel dist n (firstn _ _) e) as [a|] eqn:Ha; [|discriminate].
    destruct (rdp_fuel dist n (skipn _ _) e) as [b|] eqn:Hb; [|discriminate].
    intros H. injection H as <-.
    pose proof (rdp_fuel_shape dist n (firstn (index + 1) (p :: rest)) e a
      ltac:(rewrite firstn_succ_cons; congruence) Ha) as [Ha2 _].
    apply IH in Ha; [|rewrite length_firstn_cons by (cbn [length]; lia); lia].
    apply IH in Hb; [|rewrite length_skipn; cbn [length]; lia].
    rewrite <- (firstn_skipn index (p :: rest)).
    apply subseq_app; [|exact Hb].
    rewrite <- removelast_firstn by (cbn [length]; lia).
    rewrite Nat.add_1_r in Ha. apply subseq_removelast; [exact Ha|].
    intros E; rewrite E in Ha2; simpl in Ha2; lia.
  - intros H. injection H as <-. apply subseq_take.
    destruct rest as [|q rest]; [cbn [length] in H1; lia|].
    apply subseq_last. congruence.
Qed.

End RdpMore.

Lemma hd_error_map {A B} (f : A -> B) l : hd_error (map f l) = option_map f (hd_error l).
Proof. destruct l; reflexivity. Qed.

Lemma last_opt_map {A B} (f : A -> B) l : last_opt (map f l) = option_map f (last_opt l).
Proof.
  induction l as [|a l IH]; [reflexivity|].
  destruct l as [|b l]; [reflexivity|].
  change (map f (a :: b :: l)) with (f a :: map f (b :: l)).
  rewrite last_opt_cons by (simpl; congruence).
  rewrite last_opt_cons by congruence. exact IH.
Qed.

Lemma ring_closed_iff ls :
  ring_closed ls <-> hd_error (ls_coords ls) = last_opt (ls_coords ls).
Proof.
  unfold ring_closed. destruct (ls_coords ls) as [|c cs] eqn:E; [tauto|].
  rewrite (last_opt_last (c :: cs) c) by congruence. simpl.
  split; [intros H; rewrite <- H; reflexivity | intros H; injection H as H; exact H].
Qed.

Lemma map_option_Forall2 {A B} (f : A -> option B) (P : A -> B -> Prop) l :
  (forall a, In a l -> exists b, f a = Some b /\ P a b) ->
  exists bs, map_option f l = Some bs /\ Forall2 P l bs.
Proof.
  induction l as [|a l IH]; intros H; [exists []; split; [reflexivity | constructor]|].
  destruct (H a (or_introl eq_refl)) as [b [Hb Pb]].
  destruct IH as [bs [Hbs Pbs]]; [intros a' Ha'; apply H; right; exact Ha'|].
  exists (b :: bs). split; [simpl; rewrite Hb, Hbs; reflexivity | constructor; assumption].
Qed.

Lemma simplify_linestring_closed dist e ls :
  0 <= e -> exists ls', simplify_linestring dist e ls = Some ls' /\
    (ring_closed ls -> ring_closed ls').
Proof.
  intros He. unfold simplify_linestring.
  destruct (rdp_fuel_total dist e He (length (into_points ls)) (into_points ls) (le_n _))
    as [o Ho].
  unfold rdp. rewrite Ho. eexists. split; [reflexivity|].
  rewrite !ring_closed_iff. unfold LineString_from_points. cbn [ls_coords].
  rewrite hd_error_map, last_opt_map.
  destruct (ls_coords ls) as [|c cs] eqn:E.
  - unfold into_points in Ho. rewrite E in Ho. injection Ho as <-. reflexivity.
  - intros Hc.
    assert (Hne : into_points ls <> []) by (unfold into_points; rewrite E; discriminate).
    destruct (rdp_fuel_shape dist _ _ e o Hne Ho) as [_ [H1 H2]].
    rewrite H1, H2. unfold into_points. rewrite E.
    rewrite hd_error_map, last_opt_map, Hc.
    destruct (last_opt (ls_coords ls)); reflexivity.
Qed.

Lemma simplify_polygon_closed dist e p :
  0 <= e -> exists p', simplify_polygon dist e p = Some p' /\
    length (interiors p') = length (interiors p) /\
    (ring_closed (exterior p) -> ring_closed (exterior p')) /\
    Forall2 (fun r r' => ring_closed r -> ring_closed r') (interiors p) (interiors p').
Proof.
  intros He. unfold simplify_polygon.
  destruct (simplify_linestring_closed dist e (exterior p) He) as [ext [Hext Cext]].
  destruct (map_option_Forall2 (simplify_linestring dist e)
              (fun r r' => ring_closed r -> ring_closed r') (interiors p))
    as [is [His Cis]].
  { intros r _. apply simplify_linestring_closed. exact He. }
  rewrite Hext, His. eexists. split; [reflexivity|]. cbn [interiors exterior].
  split; [symmetry; exact (Forall2_length Cis)|]. split; assumption.
Qed.

(** ** Extra properties *)

(** X1: with a tolerance [epsilon >= 0] and an input whose length is not
    1, [rdp] only deletes points: its output is a subsequence of its
    input, in the input's order. *)
Theorem rdp_output_subsequence (dist : Point -> Line -> Q) (points out : list Point)
    (epsilon : Q) (He : 0 <= epsilon) (Hlen : length points <> 1%nat)
    (Hr : rdp_result dist points epsilon out) :
  subseq out points.
Proof.
  destruct Hr as [n H]. exact (rdp_fuel_subseq dist epsilon He n points out Hlen H).
Qed.

Lemma rdp_output_subsequence_witness :
  0 <= 1#2 /\ length tent <> 1%nat /\ rdp_result sq_offset tent (1#2) tent /\
  subseq tent tent.
Proof.
  assert (Hr : rdp_result sq_offset tent (1#2) tent)
    by (exists 3%nat; vm_compute; reflexivity).
  split; [vm_compute; discriminate|]. split; [discriminate|]. split; [exact Hr|].
  exact (rdp_output_subsequence sq_offset tent tent (1#2)
           ltac:(vm_compute; discriminate) ltac:(discriminate) Hr).
Defined.

(** X2: for [epsilon >= 0] and a non-empty input, [rdp] collapses the input
    to exactly two points if and only if every interior point lies within
    [epsilon] of the line from the first to the last point. *)
Theorem rdp_two_points_iff_within (dist : Point -> Line -> Q) (p : Point)
    (rest out : list Point) (epsilon : Q) (He : 0 <= epsilon)
    (Hr : rdp_result dist (p :: rest) epsilon out) :
  length out = 2%nat <->
  Forall (fun q => dist q (Line_new (point_coord p) (point_coord (last (p :: rest) p)))
                   <= epsilon)
    (removelast rest).
Proof.
  destruct Hr as [[|n] H]; [discriminate|]. revert H.
  rewrite rdp_fuel_S_cons.
  destruct (scan_max dist _ _ 1 0 0) as [dmax index] eqn:Hs.
  pose proof (scan_max_le_iff dist _ _ _ _ _ _ _ epsilon Hs) as Hiff.
  rewrite interior_removelast in Hiff.
  apply scan_max_spec in Hs. rewrite length_scan_window in Hs.
  destruct (Qgtb dmax epsilon) eqn:G.
  - apply Qgtb_true in G.
    destruct (rdp_fuel dist n (firstn _ _) epsilon) as [a|] eqn:Ha; [|discriminate].
    destruct (rdp_fuel dist n (skipn _ _) epsilon) as [b|] eqn:Hb; [|discriminate].
    intros H. injection H as <-.
    assert (Hk : (index < length (p :: rest))%nat) by (cbn [length] in *; lia).
    pose proof (rdp_fuel_shape dist n (firstn (index + 1) (p :: rest)) epsilon a
      ltac:(rewrite firstn_succ_cons; congruence) Ha) as [La _].
    pose proof (rdp_fuel_shape dist n (skipn index (p :: rest)) epsilon b
      (skipn_cons_nonempty index p rest Hk) Hb) as [Lb _].
    rewrite length_removelast_app by lia. split; [lia|].
    intros HF. exfalso. apply (Qlt_not_le epsilon dmax G). apply Hiff.
    split; [exact He | exact HF].
  - apply Qgtb_false in G. intros H. injection H as <-.
    split; [intros _; apply Hiff; exact G | reflexivity].
Qed.

Lemma rdp_two_points_iff_within_witness :
  0 <= 1#2 /\ rdp_result sq_offset tent (1#2) tent /\
  (length tent = 2%nat <->
   Forall (fun q => sq_offset q (Line_new (point_coord origin)
                                   (point_coord (last tent origin))) <= 1#2)
     (removelast [Point_new 1 1; Point_new 2 0])).
Proof.
  assert (Hr : rdp_result sq_offset tent (1#2) tent)
    by (exists 3%nat; vm_compute; reflexivity).
  split; [vm_compute; discriminate|]. split; [exact Hr|].
  exact (rdp_two_points_iff_within sq_offset origin [Point_new 1 1; Point_new 2 0]
           tent (1#2) ltac:(vm_compute; discriminate) Hr).
Defined.

(** X3: a two-point input is returned unchanged for every [epsilon >= 0],
    and [rdp] does not return on it for [epsilon < 0]. *)
Theorem rdp_two_point_input (dist : Point -> Line -> Q) (p q : Point) (epsilon : Q) :
  (0 <= epsilon -> rdp dist [p; q] epsilon = Some [p; q]) /\
  (epsilon < 0 -> rdp dist [p; q] epsilon = None).
Proof.
  split.
  - intros He. unfold rdp. cbn [rdp_fuel length firstn skipn Nat.sub scan_max].
    rewrite (proj2 (Qgtb_false 0 epsilon) He). reflexivity.
  - intros He. apply rdp_fuel_negative_diverges; [exact He | discriminate].
Qed.

(** X4: for [epsilon >= 0], simplifying a polygon returns, keeps the number
    of interior rings, and keeps every closed ring (first point equal to
    last point) closed, exterior and interiors alike. *)
Theorem simplify_polygon_keeps_rings (dist : Point -> Line -> Q) (epsilon : Q)
    (p : Polygon) (He : 0 <= epsilon) :
  exists p', simplify_polygon dist epsilon p = Some p' /\
    length (interiors p') = length (interiors p) /\
    (ring_closed (exterior p) -> ring_closed (exterior p')) /\
    Forall2 (fun r r' => ring_closed r -> ring_closed r') (interiors p) (interiors p').
Proof. exact (simplify_polygon_closed dist epsilon p He). Qed.

Definition square_poly : Polygon :=
  {| exterior := mkLineString [{| x := 0; y := 0 |}; {| x := 0; y := 10 |};
                               {| x := 10; y := 10 |}; {| x := 0; y := 0 |}];
     interiors := [] |}.

Lemma simplify_polygon_keeps_rings_witness :
  0 <= 2 /\
  exists p', simplify_polygon sq_offset 2 square_poly = Some p' /\
    length (interiors p') = length (interiors square_poly) /\
    (ring_closed (exterior square_poly) -> ring_closed (exterior p')) /\
    Forall2 (fun r r' => ring_closed r -> ring_closed r')
      (interiors square_poly) (interiors p').
Proof.
  split; [vm_compute; discriminate|].
  exact (simplify_polygon_keeps_rings sq_offset 2 square_poly
           ltac:(vm_compute; discriminate)).
Defined.

(** X5: for [epsilon >= 0], simplifying a MultiLineString or a
    MultiPolygon returns, with the same number of members in the same
    order, each the simplification of the corresponding input member. *)
Theorem simplify_multi_memberwise (dist : Point -> Line -> Q) (epsilon : Q)
    (ml : MultiLineString) (mp : MultiPolygon) (He : 0 <= epsilon) :
  (exists ml', simplify_multilinestring dist epsilon ml = Some ml' /\
     Forall2 (fun l l' => simplify_linestring dist epsilon l = Some l')
       (mls_members ml) (mls_members ml')) /\
  (exists mp', simplify_multipolygon dist epsilon mp = Some mp' /\
     Forall2 (fun p p' => simplify_polygon dist epsilon p = Some p')
       (mpoly_members mp) (mpoly_members mp')).
Proof.
  split.
  - destruct (map_option_Forall2 (simplify_linestring dist epsilon)
                (fun l l' => simplify_linestring dist epsilon l = Some l') (mls_members ml))
      as [ls [Hls Fls]].
    { intros l _. destruct (simplify_linestring_closed dist epsilon l He) as [l' [Hl _]].
      exists l'. split; exact Hl. }
    exists (mkMultiLineString ls). unfold simplify_multilinestring. rewrite Hls.
    split; [reflexivity | exact Fls].
  - destruct (map_option_Forall2 (simplify_polygon dist epsilon)
                (fun p p' => simplify_polygon dist epsilon p = Some p') (mpoly_members mp))
      as [ps [Hps Fps]].
    { intros p _. destruct (simplify_polygon_closed dist epsilon p He) as [p' [Hp _]].
      exists p'. split; exact Hp. }
    exists (mkMultiPolygon ps). unfold simplify_multipolygon. rewrite Hps.
    split; [reflexivity | exact Fps].
Qed.

Lemma simplify_multi_memberwise_witness :
  0 <= 1 /\
  (exists ml', simplify_multilinestring sq_offset 1 (mkMultiLineString []) = Some ml' /\
     Forall2 (fun l l' => simplify_linestring sq_offset 1 l = Some l')
       (mls_members (mkMultiLineString [])) (mls_members ml')) /\
  (exists mp', simplify_multipolygon sq_offset 1 (mkMultiPolygon [square_poly]) = Some mp' /\
     Forall2 (fun p p' => simplify_polygon sq_offset 1 p = Some p')
       (mpoly_members (mkMultiPolygon [square_poly])) (mpoly_members mp')).
Proof.
  split; [vm_compute; discriminate|].
  exact (simplify_multi_memberwise sq_offset 1 (mkMultiLineString [])
           (mkMultiPolygon [square_poly]) ltac:(vm_compute; discriminate)).
Defined.

(** ** Further facts on the [Intersects] cases *)

Lemma Qeq_bool_opp_zero (a b : Q) : a == - b -> Qeq_bool a 0 = Qeq_bool b 0.
Proof.
  intros H. apply Bool.eq_iff_eq_true. rewrite !Qeq_bool_iff. rewrite H.
  split; intros E; [|rewrite E; reflexivity].
  setoid_replace b with (- - b) by ring. rewrite E. reflexivity.
Qed.

Lemma segments_cross_sym (a b : Line) : segments_cross a b = segments_cross b a.
Proof.
  unfold segments_cross.
  rewrite (Qeq_bool_opp_zero (dy a * dx b - dx a * dy b) (dy b * dx a - dx b * dy a))
    by ring.
  destruct (Qeq_bool (dy b * dx a - dx b * dy a) 0) eqn:Hu; [reflexivity|].
  apply Qeq_bool_false_iff in Hu.
  assert (Hu' : ~ dy a * dx b - dx a * dy b == 0).
  { intros E. apply Hu.
    setoid_replace (dy b * dx a - dx b * dy a) with (- (dy a * dx b - dx a * dy b))
      by ring.
    rewrite E. reflexivity. }
  apply Bool.eq_iff_eq_true. bool_to_prop.
  setoid_replace
    ((dx a * (y (start b) - y (start a)) - dy a * (x (start b) - x (start a)))
     / (dy a * dx b - dx a * dy b))
    with ((dx a * (y (start a) - y (start b)) - dy a * (x (start a) - x (start b)))
          / (dy b * dx a - dx b * dy a))
    by (field; split; assumption).
  setoid_replace
    ((dx b * (y (start b) - y (start a)) - dy b * (x (start b) - x (start a)))
     / (dy a * dx b - dx a * dy b))
    with ((dx b * (y (start a) - y (start b)) - dy b * (x (start a) - x (start b)))
          / (dy b * dx a - dx b * dy a))
    by (field; split; assumption).
  tauto.
Qed.

Lemma unit_box_swap (s t s' t' : Q) :
  s == t' -> t == s' ->
  Qle_bool 0 s && Qle_bool s 1 && Qle_bool 0 t && Qle_bool t 1
  = Qle_bool 0 s' && Qle_bool s' 1 && Qle_bool 0 t' && Qle_bool t' 1.
Proof.
  intros H1 H2. apply Bool.eq_iff_eq_true. bool_to_prop.
  rewrite H1, H2. tauto.
Qed.

Lemma line_intersects_line_sym (a b : Line) :
  line_intersects_line a b = line_intersects_line b a.
Proof.
  cbv beta zeta delta [line_intersects_line].
  rewrite (Qeq_bool_opp_zero (dx a * - dy b - dy a * - dx b) (dx b * - dy a - dy b * - dx a))
    by ring.
  destruct (Qeq_bool (dx b * - dy a - dy b * - dx a) 0) eqn:Hd.
  - destruct (point_intersects_line (mkPoint (start a)) b),
      (point_intersects_line (mkPoint (end_ a)) b),
      (point_intersects_line (mkPoint (start b)) a),
      (point_intersects_line (mkPoint (end_ b)) a); reflexivity.
  - apply Qeq_bool_false_iff in Hd.
    assert (Hd' : ~ dx a * - dy b - dy a * - dx b == 0).
    { intros E. apply Hd.
      setoid_replace (dx b * - dy a - dy b * - dx a) with (- (dx a * - dy b - dy a * - dx b))
        by ring.
      rewrite E. reflexivity. }
    apply unit_box_swap; field; split; assumption.
Qed.

Lemma unit_box_eq (s t s' t' : Q) :
  s == s' -> t == t' ->
  Qle_bool 0 s && Qle_bool s 1 && Qle_bool 0 t && Qle_bool t 1
  = Qle_bool 0 s' && Qle_bool s' 1 && Qle_bool 0 t' && Qle_bool t' 1.
Proof.
  intros H1 H2. apply Bool.eq_iff_eq_true. bool_to_prop.
  rewrite H1, H2. tauto.
Qed.

Lemma segments_cross_nonparallel (a b : Line) :
  ~ dy b * dx a - dx b * dy a == 0 ->
  segments_cross a b = line_intersects_line a b.
Proof.
  intros Hu.
  assert (Hd : ~ dx a * - dy b - dy a * - dx b == 0).
  { intros E. apply Hu.
    setoid_replace (dy b * dx a - dx b * dy a) with (- (dx a * - dy b - dy a * - dx b))
      by ring.
    rewrite E. reflexivity. }
  cbv beta zeta delta [segments_cross line_intersects_line].
  rewrite (proj2 (Qeq_bool_false_iff _ 0) Hu), (proj2 (Qeq_bool_false_iff _ 0) Hd).
  apply unit_box_eq; field; split; assumption.
Qed.

Lemma segments_cross_parallel (a b : Line) :
  dy b * dx a - dx b * dy a == 0 -> segments_cross a b = false.
Proof.
  intros Hu. unfold segments_cross. rewrite (proj2 (Qeq_bool_iff _ 0) Hu). reflexivity.
Qed.

Lemma segments_cross_line (a b : Line) :
  segments_cross a b = true -> line_intersects_line a b = true.
Proof.
  destruct (Qeq_bool (dy b * dx a - dx b * dy a) 0) eqn:Hu.
  - apply Qeq_bool_iff in Hu. rewrite segments_cross_parallel by exact Hu. discriminate.
  - apply Qeq_bool_false_iff in Hu. rewrite segments_cross_nonparallel by exact Hu. auto.
Qed.

Lemma existsb_swap {A B} (f : A -> B -> bool) (la : list A) (lb : list B) :
  existsb (fun a => existsb (fun b => f a b) lb) la
  = existsb (fun b => existsb (fun a => f a b) la) lb.
Proof.
  apply Bool.eq_iff_eq_true. rewrite !existsb_exists. split.
  - intros [a [Ha Hb]]. apply existsb_exists in Hb. destruct Hb as [b [Hb Hf]].
    exists b. split; [exact Hb|]. apply existsb_exists. eauto.
  - intros [b [Hb Ha]]. apply existsb_exists in Ha. destruct Ha as [a [Ha Hf]].
    exists a. split; [exact Ha|]. apply existsb_exists. eauto.
Qed.

Lemma existsb_ext {A} (f g : A -> bool) (l : list A) :
  (forall a, f a = g a) -> existsb f l = existsb g l.
Proof. intros H. induction l as [|a l IH]; simpl; [reflexivity|]. rewrite H, IH. reflexivity. Qed.

Lemma linestring_intersects_linestring_sym (s o : LineString) :
  linestring_intersects_linestring s o = linestring_intersects_linestring o s.
Proof.
  unfold linestring_intersects_linestring.
  rewrite (Bool.orb_comm (match ls_coords s with [] => true | _ => false end)).
  destruct (_ || _); [reflexivity|].
  rewrite existsb_swap.
  apply existsb_ext. intros b. apply existsb_ext. intros a.
  apply segments_cross_sym.
Qed.

Lemma lines_of_short (cs : list Coordinate) : (length cs <= 1)%nat -> lines_of cs = [].
Proof. destruct cs as [|c [|c' cs]]; simpl; intros H; [reflexivity | reflexivity | lia]. Qed.

Lemma linestring_intersects_crossing (s o : LineString) :
  linestring_intersects_linestring s o = true ->
  exists a b, In a (lines s) /\ In b (lines o) /\ segments_cross a b = true.
Proof.
  unfold linestring_intersects_linestring.
  destruct (_ || _); [discriminate|].
  intros H. apply existsb_exists in H. destruct H as [a [Ha H]].
  apply existsb_exists in H. destruct H as [b [Hb H]]. eauto.
Qed.

Lemma linestring_intersects_line_of (ls : LineString) (a : Line) :
  In a (lines ls) -> forall l, line_intersects_line l a = true ->
  line_intersects_linestring l ls = true.
Proof. intros Ha l H. apply existsb_exists. eauto. Qed.

Lemma polygon_two_point_line (c : Polygon -> Point -> bool) (p : Polygon) (l : Line) :
  polygon_intersects_linestring c p (mkLineString [start l; end_ l]) = true ->
  line_intersects_polygon c l p = true.
Proof.
  assert (Hls : forall r, linestring_intersects_linestring r (mkLineString [start l; end_ l]) = true ->
            linestring_intersects_line r l = true).
  { intros r Hr. apply linestring_intersects_crossing in Hr.
    destruct Hr as [a [b [Ha [Hb H]]]].
    unfold lines in Hb. simpl in Hb. destruct Hb as [Hb|[]]. subst b.
    apply segments_cross_line in H. rewrite line_intersects_line_sym in H.
    unfold linestring_intersects_line.
    apply (linestring_intersects_line_of r a Ha). destruct l; exact H. }
  unfold polygon_intersects_linestring, line_intersects_polygon.
  destruct (linestring_intersects_linestring (exterior p) _) eqn:He.
  - rewrite (Hls _ He). reflexivity.
  - destruct (existsb _ (interiors p)) eqn:Hi; simpl orb; cbv iota.
    + intros _. apply existsb_exists in Hi. destruct Hi as [r [Hr Hr']].
      assert (Hx : existsb (fun inner => linestring_intersects_line inner l) (interiors p) = true).
      { apply existsb_exists. exists r. split; [exact Hr|]. apply Hls. exact Hr'. }
      rewrite Hx, Bool.orb_true_r. reflexivity.
    + unfold points_iter, start_point, end_point. simpl.
      rewrite Bool.orb_false_r. intros H.
      apply Bool.orb_true_iff in H. rewrite !Bool.orb_true_iff. tauto.
Qed.

(** X6: the Line-Line test is symmetric: [a.intersects(&b)] and
    [b.intersects(&a)] agree, in the parallel and in the crossing case. *)
Theorem line_intersects_line_symmetric (a b : Line) :
  line_intersects_line a b = line_intersects_line b a.
Proof. apply line_intersects_line_sym. Qed.

(** X7: the LineString-LineString test is symmetric. *)
Theorem linestring_intersects_linestring_symmetric (s o : LineString) :
  linestring_intersects_linestring s o = linestring_intersects_linestring o s.
Proof. apply linestring_intersects_linestring_sym. Qed.

(** X11: a LineString with fewer than two points has no segment, so it
    intersects no Line and no LineString, in either argument order. *)
Theorem short_linestring_intersects_nothing (ls o : LineString) (l : Line)
    (Hlen : (length (ls_coords ls) <= 1)%nat) :
  line_intersects_linestring l ls = false /\
  linestring_intersects_line ls l = false /\
  linestring_intersects_linestring ls o = false /\
  linestring_intersects_linestring o ls = false.
Proof.
  assert (Hl : lines ls = []) by (apply lines_of_short; exact Hlen).
  assert (Ho : linestring_intersects_linestring ls o = false).
  { unfold linestring_intersects_linestring. rewrite Hl. simpl.
    destruct (_ || _); reflexivity. }
  unfold linestring_intersects_line, line_intersects_linestring.
  rewrite Hl. refine (conj eq_refl (conj eq_refl (conj Ho _))).
  rewrite linestring_intersects_linestring_sym. exact Ho.
Qed.

Lemma short_linestring_intersects_nothing_witness :
  (length (ls_coords (mkLineString [{| x := 1; y := 1 |}])) <= 1)%nat /\
  (line_intersects_linestring (Line_new {| x := 0; y := 0 |} {| x := 2; y := 2 |})
     (mkLineString [{| x := 1; y := 1 |}]) = false /\
   linestring_intersects_line (mkLineString [{| x := 1; y := 1 |}])
     (Line_new {| x := 0; y := 0 |} {| x := 2; y := 2 |}) = false /\
   linestring_intersects_linestring (mkLineString [{| x := 1; y := 1 |}])
     (mkLineString [{| x := 0; y := 0 |}; {| x := 2; y := 2 |}]) = false /\
   linestring_intersects_linestring
     (mkLineString [{| x := 0; y := 0 |}; {| x := 2; y := 2 |}])
     (mkLineString [{| x := 1; y := 1 |}]) = false).
Proof.
  split; [simpl; lia|].
  apply short_linestring_intersects_nothing. simpl; lia.
Defined.

(** X14: when the LineString-LineString test answers [true], some segment
    of the one and some segment of the other also intersect under the
    Line-Line test; so the LineString test never accepts a pair that the
    Line test rejects. *)
Theorem linestring_intersection_has_line_intersection (s o : LineString)
    (H : linestring_intersects_linestring s o = true) :
  exists a b, In a (lines s) /\ In b (lines o) /\ line_intersects_line a b = true.
Proof.
  destruct (linestring_intersects_crossing s o H) as [a [b [Ha [Hb Hc]]]].
  exists a, b. split; [exact Ha|]. split; [exact Hb|].
  apply segments_cross_line. exact Hc.
Qed.

Lemma linestring_intersection_has_line_intersection_witness :
  linestring_intersects_linestring
    (mkLineString [{| x := 3; y := 2 |}; {| x := 7; y := 6 |}])
    (mkLineString [{| x := 3; y := 4 |}; {| x := 8; y := 4 |}]) = true /\
  exists a b, In a (lines (mkLineString [{| x := 3; y := 2 |}; {| x := 7; y := 6 |}])) /\
    In b (lines (mkLineString [{| x := 3; y := 4 |}; {| x := 8; y := 4 |}])) /\
    line_intersects_line a b = true.
Proof.
  assert (H : linestring_intersects_linestring
    (mkLineString [{| x := 3; y := 2 |}; {| x := 7; y := 6 |}])
    (mkLineString [{| x := 3; y := 4 |}; {| x := 8; y := 4 |}]) = true)
    by (vm_compute; reflexivity).
  split; [exact H|].
  exact (linestring_intersection_has_line_intersection _ _ H).
Defined.

(** X15: whatever the point-in-polygon test, if a Polygon intersects the
    two-point LineString of a line's endpoints, it also intersects the
    line itself (Polygon-Line and Line-Polygon). *)
Theorem polygon_linestring_to_line (contains : Polygon -> Point -> bool)
    (p : Polygon) (l : Line)
    (H : polygon_intersects_linestring contains p (mkLineString [start l; end_ l]) = true) :
  polygon_intersects_line contains p l = true /\ line_intersects_polygon contains l p = true.
Proof.
  pose proof (polygon_two_point_line contains p l H) as H'.
  unfold polygon_intersects_line. tauto.
Qed.

Lemma polygon_linestring_to_line_witness :
  polygon_intersects_linestring (fun _ _ => false)
    (bbox_polygon {| xmin := 0; xmax := 2; ymin := 0; ymax := 2 |})
    (mkLineString [start (Line_new {| x := 1; y := 1 |} {| x := 3; y := 1 |});
                   end_ (Line_new {| x := 1; y := 1 |} {| x := 3; y := 1 |})]) = true /\
  (polygon_intersects_line (fun _ _ => false)
     (bbox_polygon {| xmin := 0; xmax := 2; ymin := 0; ymax := 2 |})
     (Line_new {| x := 1; y := 1 |} {| x := 3; y := 1 |}) = true /\
   line_intersects_polygon (fun _ _ => false)
     (Line_new {| x := 1; y := 1 |} {| x := 3; y := 1 |})
     (bbox_polygon {| xmin := 0; xmax := 2; ymin := 0; ymax := 2 |}) = true).
Proof.
  assert (H : polygon_intersects_linestring (fun _ _ => false)
    (bbox_polygon {| xmin := 0; xmax := 2; ymin := 0; ymax := 2 |})
    (mkLineString [start (Line_new {| x := 1; y := 1 |} {| x := 3; y := 1 |});
                   end_ (Line_new {| x := 1; y := 1 |} {| x := 3; y := 1 |})]) = true)
    by (vm_compute; reflexivity).
  split; [exact H|].
  exact (polygon_linestring_to_line _ _ _ H).
Defined.

(** X19: negation is an involution, and subtraction is addition of the
    negated point, component-wise under [==]. *)
Theorem point_neg_sub (p q : Point) :
  point_eqb (Point_neg (Point_neg p)) p = true /\
  point_eqb (Point_sub p q) (Point_add p (Point_neg q)) = true.
Proof.
  unfold point_eqb, coord_eqb, Point_neg, Point_sub, Point_add, Point_new,
    Point_x, Point_y.
  cbn [x y point_coord]. bool_to_prop. repeat split; ring.
Qed.

(** X20: chaining [p.set_x(a).set_y(b)] through the returned handle sets
    the point to [(a, b)], returns the same handle, leaves every other
    point unchanged, and gives the same store as [p.set_y(b).set_x(a)]. *)
Theorem setters_chain (h : store) (l : loc) (a b : Q) :
  let '(h1, r1) := set_x h l a in
  let '(h2, r2) := set_y h1 r1 b in
  let '(g1, s1) := set_y h l b in
  let '(g2, s2) := set_x g1 s1 a in
  h2 l = Point_new a b /\ r2 = l /\ (forall l', l' <> l -> h2 l' = h l') /\
  (forall l', h2 l' = g2 l').
Proof.
  unfold set_x, set_y, store_upd, Point_new. cbn [x y point_coord].
  rewrite !Nat.eqb_refl. cbn [x y point_coord].
  split; [reflexivity|]. split; [reflexivity|]. split.
  - intros l' Hl'. apply Nat.eqb_neq in Hl'. rewrite Hl'. reflexivity.
  - intros l'. destruct (Nat.eqb l' l); reflexivity.
Qed.
